(** * Greedy path selection: a shallow embedding of [greedy_path_demo.py]

    The development follows the layout of the Python module: the sample
    data, [build_graph], and [greedy_path] with its [while] loop.  Of
    [visualise] and [main] the expressions that compute data from the path
    are modelled; drawing, layout and the command line are not. *)

From stdpp Require Import base gmap strings list.

Open Scope Z_scope.

(** ** Data *)

Abbreviation Node := string (only parsing).

(** An edge is the Python triple [(source, target, weight)]. *)
Abbreviation Edge := (string * string * Z)%type (only parsing).

Definition src (e : Edge) : Node := e.1.1.
Definition tgt (e : Edge) : Node := e.1.2.
Definition weight (e : Edge) : Z := e.2.

Definition SAMPLE_EDGES : list Edge :=
  [ ("A", "B", 4); ("A", "C", 2); ("B", "C", 4);
    ("C", "B", 1); ("B", "D", 2); ("C", "D", 4);
    ("B", "E", 3); ("E", "D", 1); ("C", "E", 5) ]%string.

Definition START_NODE : Node := "A"%string.
Definition END_NODE : Node := "E"%string.

(** ** The graph container

    [nx.DiGraph] keeps its adjacency in a dictionary of dictionaries,
    [_adj[u][v]] being the attributes of the edge [u -> v].  Python
    dictionaries iterate in the order in which their keys were first
    inserted, and assigning to a key that is already present keeps
    its position.  Since the tie-break of the walker depends on that order,
    a dictionary is an association list here, not a finite map. *)
Module Dict.
Section Dict.
Context {V : Type}.
Implicit Types (d : list (Node * V)) (k : Node) (v : V).

(** [d.get(k)] *)
Fixpoint get d k : option V :=
  match d with
  | [] => None
  | (k', v') :: d' => if decide (k = k') then Some v' else get d' k
  end.

(** [k in d] *)
Definition mem d k : bool := bool_decide (is_Some (get d k)).

(** [d[k] = v] *)
Fixpoint set d k v : list (Node * V) :=
  match d with
  | [] => [(k, v)]
  | (k', v') :: d' =>
      if decide (k = k') then (k', v) :: d' else (k', v') :: set d' k v
  end.

(** [list(d)], the keys in iteration order *)
Definition keys d : list Node := d.*1.
End Dict.
End Dict.

(** Modelled from the spec: the class [networkx.DiGraph] is a dependency of
    the program and its code is not part of the repository.  The graph is
    the specification's "mapping from each source Node to its set of
    outgoing Edges", nodes being "added implicitly when edges are inserted",
    with the library's dictionary-of-dictionaries representation: every node
    is a key of [adj], and [adj[u]] maps each successor of [u] to the weight
    of the edge. *)
Record DiGraph := { adj : list (Node * list (Node * Z)) }.

(** [nx.DiGraph()] *)
Definition empty_graph : DiGraph := {| adj := [] |}.

(** The nodes, in insertion order. *)
Definition nodes (g : DiGraph) : list Node := Dict.keys (adj g).

(** [n in graph] *)
Definition has_node (g : DiGraph) (n : Node) : bool := Dict.mem (adj g) n.

(** [graph.add_node(n)] for a node that may be present already. *)
Definition add_node (g : DiGraph) (n : Node) : DiGraph :=
  if has_node g n then g else {| adj := adj g ++ [(n, [])] |}.

(** [graph._adj[u]], empty for a node without successors. *)
Definition succs (g : DiGraph) (u : Node) : list (Node * Z) :=
  default [] (Dict.get (adj g) u).

(** Modelled from the spec: one step of [add_weighted_edges_from], which is
    library code.  Both end points become nodes, and the weight is stored
    under the ordered pair, overwriting the weight of an edge that is
    already there ("last write wins for that pair's weight"). *)
Definition add_weighted_edge (g : DiGraph) (e : Edge) : DiGraph :=
  let g1 := add_node g (src e) in
  let g2 := add_node g1 (tgt e) in
  {| adj := Dict.set (adj g2) (src e)
                     (Dict.set (succs g2 (src e)) (tgt e) (weight e)) |}.

(** [graph.add_weighted_edges_from(edges)] *)
Definition add_weighted_edges_from (g : DiGraph) (edges : list Edge) : DiGraph :=
  foldl add_weighted_edge g edges.

(** Modelled from the spec: [graph.edges(u, data=True)] for a node [u],
    library code; the outgoing edges of [u] in "insertion order of edges
    from that node", each with its weight. *)
Definition edges (g : DiGraph) (u : Node) : list Edge :=
  (λ vw : Node * Z, (u, vw.1, vw.2)) <$> succs g u.

(** ** [build_graph] *)

Definition build_graph (edges : list Edge) : DiGraph :=
  let g := empty_graph in
  add_weighted_edges_from g edges.

(** ** [greedy_path] *)

(** The two [ValueError]s the walker raises, told apart by their raise
    site: the check of the arguments, and the loop finding no candidate,
    whose message quotes the current node. *)
Inductive error : Type :=
  | InvalidArgument
  | Stuck (current : Node).

(** The local variables of [greedy_path] that the loop updates. *)
Record state := State {
  path : list Edge;
  current : Node;
  visited : gset Node;
}.

(** [min(x :: l, key=lambda t: t[2])]: Python's [min] keeps the item it
    holds unless the next one is strictly smaller. *)
Fixpoint min_by_weight (x : Edge) (l : list Edge) : Edge :=
  match l with
  | [] => x
  | y :: l' =>
      if decide (weight y < weight x) then min_by_weight y l'
      else min_by_weight x l'
  end.

(** The list comprehension at the head of the loop body. *)
Definition outgoing (g : DiGraph) (st : state) : list Edge :=
  filter (λ e, tgt e ∉ visited st) (edges g (current st)).

(** One execution of the body of the [while] loop. *)
Definition loop_body (g : DiGraph) (st : state) : error + state :=
  match outgoing g st with
  | [] => inl (Stuck (current st))
  | x :: l =>
      let e := min_by_weight x l in
      inr {| path := path st ++ [e];
             current := tgt e;
             visited := {[tgt e]} ∪ visited st |}
  end.

(** The [while current != end] loop.  [fuel] bounds the number of times the
    body may run; [None] means that the bound was reached. *)
Fixpoint while_loop (fuel : nat) (g : DiGraph) (end_ : Node) (st : state)
  : option (error + list Edge) :=
  if decide (current st = end_) then Some (inr (path st))
  else
    match fuel with
    | O => None
    | S fuel' =>
        match loop_body g st with
        | inl err => Some (inl err)
        | inr st' => while_loop fuel' g end_ st'
        end
    end.

(** The state on entry to the loop. *)
Definition init (start : Node) : state :=
  {| path := []; current := start; visited := {[start]} |}.

Definition greedy_path_fuel (fuel : nat) (g : DiGraph) (start end_ : Node)
  : option (error + list Edge) :=
  if negb (has_node g start) || negb (has_node g end_)
  then Some (inl InvalidArgument)
  else while_loop fuel g end_ (init start).

(** The walker.  On a well-formed graph the loop body runs at most as many
    times as the graph has nodes, the execution that raises included
    ([while_loop_terminates] below), so this much fuel always suffices. *)
Definition greedy_path (g : DiGraph) (start end_ : Node)
  : option (error + list Edge) :=
  greedy_path_fuel (length (nodes g)) g start end_.

(** [k] successive executions of the loop body, each entered with
    [current != end]; [None] when the loop stops earlier. *)
Fixpoint iterate (k : nat) (g : DiGraph) (end_ : Node) (st : state)
  : option state :=
  match k with
  | O => Some st
  | S k' =>
      if decide (current st = end_) then None
      else match loop_body g st with
           | inl _ => None
           | inr st' => iterate k' g end_ st'
           end
  end.

(** ** Vocabulary of the statements *)

(** [chain from p]: the first edge of [p] leaves [from] and every edge
    leaves the target of the edge before it. *)
Fixpoint chain (from : Node) (p : list Edge) : Prop :=
  match p with
  | [] => True
  | e :: p' => src e = from ∧ chain (tgt e) p'
  end.

(** The node at which a walk along [p] from [from] ends. *)
Definition path_end (from : Node) (p : list Edge) : Node :=
  foldl (λ _ e, tgt e) from p.

(** [(u, v, w)] is an edge of the graph. *)
Definition is_edge (g : DiGraph) (e : Edge) : Prop := e ∈ edges g (src e).

(** [p] leads from [s] to [e] along edges of [g] without entering a node
    twice. *)
Definition simple_path (g : DiGraph) (s e : Node) (p : list Edge) : Prop :=
  Forall (is_edge g) p ∧ chain s p ∧ path_end s p = e
  ∧ NoDup (s :: (tgt <$> p)).

(** The invariant of the library's graph class: nodes are unique and both
    ends of every edge are nodes. *)
Definition wf_graph (g : DiGraph) : Prop :=
  NoDup (nodes g)
  ∧ Forall (λ nd : Node * list (Node * Z),
              Forall (λ vw : Node * Z, vw.1 ∈ nodes g) nd.2) (adj g).

#[global] Instance wf_graph_dec g : Decision (wf_graph g).
Proof. unfold wf_graph. apply _. Defined.

(** The successors of [u] in the order in which the triples of [es] first
    mention them. *)
Definition insertion_order (es : list Edge) (u : Node) : list Node :=
  foldl (λ (seen : list Node) e,
           if decide (src e = u ∧ tgt e ∉ seen) then seen ++ [tgt e] else seen)
        [] es.

(** What the loop maintains: the path is a chain of edges of the graph from
    [start] to [current], and [visited] holds [start] and the targets of the
    path, all distinct. *)
Record loop_inv (g : DiGraph) (start : Node) (st : state) : Prop := LoopInv {
  inv_edges : Forall (is_edge g) (path st);
  inv_chain : chain start (path st);
  inv_current : current st = path_end start (path st);
  inv_nodup : NoDup (start :: (tgt <$> path st));
  inv_visited : visited st = list_to_set (start :: (tgt <$> path st));
}.

(** ** Further inputs *)

(** Two edges of the same weight leave the start node. *)
Definition TIED_EDGES : list Edge :=
  [("A", "B", 1); ("A", "C", 1)]%string.

(** The pair [(A, B)] is given twice, with another edge in between and
    one after. *)
Definition REPEATED_EDGES : list Edge :=
  [("A", "B", 1); ("A", "C", 3)]%string
  ++ ("A", "B", 7)%string :: [("A", "C", 5)]%string.

(** A graph on which the cheapest first step leads to a costly path. *)
Definition DETOUR_EDGES : list Edge :=
  [("A", "B", 1); ("B", "C", 10); ("A", "C", 2)]%string.

(** ** What [main] and [visualise] compute from the path *)

(** [[START_NODE] + [v for _, v, _ in path]] in [main]: the nodes that
    the printed line joins with arrows. *)
Definition nodes_seq (start : Node) (path : list Edge) : list Node :=
  start :: (tgt <$> path).

(** The argument of [highlight.add_edges_from] in [visualise]:
    [[(u, v) for u, v, _ in path_edges]], computed only when [path_edges] is
    truthy, that is neither [None] nor the empty list. *)
Definition highlight_edges (path_edges : option (list Edge))
  : option (list (Node * Node)) :=
  match path_edges with
  | None | Some [] => None
  | Some (e :: p) => Some ((λ x : Edge, (src x, tgt x)) <$> e :: p)
  end.

(** ** Further vocabulary *)

(** The sum of the weights along a path. *)
Definition total_weight (p : list Edge) : Z :=
  foldr (λ e acc, weight e + acc) 0 p.

(** Some triple of [es] starts or ends at [n]. *)
Definition mentions (es : list Edge) (n : Node) : Prop :=
  ∃ e, e ∈ es ∧ (src e = n ∨ tgt e = n).

(** [e] is the last triple of [es] for its ordered pair. *)
Definition last_for_pair (es : list Edge) (e : Edge) : Prop :=
  ∃ es1 es2, es = es1 ++ e :: es2 ∧ ∀ w, (src e, tgt e, w) ∉ es2.

(** Among the edges that leave the source of [e] for a node outside [seen],
    in the graph's order, [e] is the first of least weight. *)
Definition cheapest_first (g : DiGraph) (seen : list Node) (e : Edge) : Prop :=
  ∃ pre post,
    filter (λ e', tgt e' ∉ seen) (edges g (src e)) = pre ++ e :: post
    ∧ Forall (λ e', weight e < weight e') pre
    ∧ Forall (λ e', weight e ≤ weight e') post.

(** * Proofs *)

(** ** Dictionaries *)

Section DictFacts.
Context {V : Type}.
Implicit Types (d : list (Node * V)) (k : Node) (v : V).

Lemma dict_get_set_eq d k v : Dict.get (Dict.set d k v) k = Some v.
Proof.
  induction d as [|[k' v'] d IH]; simpl.
  - by rewrite decide_True.
  - destruct (decide (k = k')) as [->|Hne]; simpl.
    + by rewrite decide_True.
    + by rewrite decide_False.
Qed.

Lemma dict_get_set_ne d k k' v :
  k ≠ k' → Dict.get (Dict.set d k v) k' = Dict.get d k'.
Proof.
  intros Hne. induction d as [|[k0 v0] d IH]; simpl.
  - by rewrite decide_False.
  - destruct (decide (k = k0)) as [->|Hk]; simpl.
    + by rewrite !(decide_False (P := k' = k0)).
    + by rewrite IH.
Qed.

Lemma dict_get_Some d k v : Dict.get d k = Some v → (k, v) ∈ d.
Proof.
  induction d as [|[k' v'] d IH]; simpl; [done|].
  destruct (decide (k = k')) as [->|Hne].
  - intros [= ->]. left.
  - intros H. right. auto.
Qed.

Lemma dict_get_is_Some d k : is_Some (Dict.get d k) ↔ k ∈ Dict.keys d.
Proof.
  unfold Dict.keys. induction d as [|[k' v'] d IH]; simpl.
  - split; [by intros [? ?] | by intros ?%elem_of_nil].
  - destruct (decide (k = k')) as [->|Hne].
    + split; [left | eauto].
    + rewrite IH, elem_of_cons. intuition congruence.
Qed.

Lemma dict_mem_keys d k : Dict.mem d k = true ↔ k ∈ Dict.keys d.
Proof.
  unfold Dict.mem. rewrite bool_decide_eq_true. apply dict_get_is_Some.
Qed.

Lemma dict_get_None d k : Dict.get d k = None ↔ k ∉ Dict.keys d.
Proof. rewrite <- dict_get_is_Some, eq_None_not_Some. done. Qed.

Lemma dict_get_snoc d k k' v :
  Dict.get (d ++ [(k', v)]) k
  = match Dict.get d k with
    | Some x => Some x
    | None => if decide (k = k') then Some v else None
    end.
Proof.
  induction d as [|[k0 v0] d IH]; simpl; [done|].
  by destruct (decide (k = k0)).
Qed.

Lemma dict_keys_set d k v :
  Dict.keys (Dict.set d k v)
  = if decide (k ∈ Dict.keys d) then Dict.keys d else Dict.keys d ++ [k].
Proof.
  unfold Dict.keys. induction d as [|[k' v'] d IH]; [done|].
  cbn [Dict.set]. destruct (decide (k = k')) as [->|Hne]; csimpl.
  - rewrite decide_True; [done | left].
  - rewrite IH. destruct (decide (k ∈ d.*1)) as [Hin|Hnin].
    + rewrite decide_True; [done | by right].
    + rewrite decide_False; [done|]. by intros [?|?]%elem_of_cons.
Qed.

Lemma dict_elem_of_set d k v x :
  x ∈ Dict.set d k v → x ∈ d ∨ x = (k, v).
Proof.
  induction d as [|[k' v'] d IH]; simpl.
  - rewrite list_elem_of_singleton. auto.
  - destruct (decide (k = k')) as [->|Hne]; rewrite !elem_of_cons.
    + intuition auto.
    + intros [->|H]; [auto|]. destruct (IH H); auto.
Qed.

Lemma dict_filter_key d k v :
  NoDup (Dict.keys d) → Dict.get d k = Some v →
  filter (λ x : Node * V, x.1 = k) d = [(k, v)].
Proof.
  unfold Dict.keys. induction d as [|[k' v'] d IH]; simpl; [done|].
  intros [Hk' Hnd]%NoDup_cons.
  destruct (decide (k = k')) as [->|Hne].
  - intros [= ->]. rewrite filter_cons_True by done. f_equal.
    apply elem_of_nil_inv. intros [k0 v0] [Heq Hin]%list_elem_of_filter.
    simpl in Heq. subst k0. apply Hk'. apply list_elem_of_fmap. by exists (k', v0).
  - intros Hget. rewrite filter_cons_False by (simpl; congruence). auto.
Qed.
End DictFacts.

(** ** The graph container *)

Lemma has_node_nodes g n : has_node g n = true ↔ n ∈ nodes g.
Proof. apply dict_mem_keys. Qed.

Lemma succs_add_node g n u : succs (add_node g n) u = succs g u.
Proof.
  unfold add_node. destruct (has_node g n) eqn:Hn; [done|].
  unfold succs; simpl. rewrite dict_get_snoc.
  destruct (Dict.get (adj g) u) eqn:Hu; [done|].
  by destruct (decide (u = n)).
Qed.

Lemma nodes_add_node g n :
  nodes (add_node g n) = if decide (n ∈ nodes g) then nodes g else nodes g ++ [n].
Proof.
  unfold add_node. destruct (has_node g n) eqn:Hn.
  - apply has_node_nodes in Hn. by rewrite decide_True.
  - rewrite decide_False.
    + unfold nodes, Dict.keys; simpl. by rewrite fmap_app.
    + rewrite <- has_node_nodes. congruence.
Qed.

Lemma nodes_add_node_incl g n x : x ∈ nodes g → x ∈ nodes (add_node g n).
Proof.
  rewrite nodes_add_node. case_decide; [done|]. rewrite elem_of_app. auto.
Qed.

Lemma nodes_add_node_self g n : n ∈ nodes (add_node g n).
Proof.
  rewrite nodes_add_node. case_decide; [done|].
  rewrite elem_of_app, list_elem_of_singleton. auto.
Qed.

Lemma nodes_add_weighted_edge g e :
  nodes (add_weighted_edge g e) = nodes (add_node (add_node g (src e)) (tgt e)).
Proof.
  unfold add_weighted_edge, nodes; simpl. rewrite dict_keys_set.
  rewrite decide_True; [done|].
  apply nodes_add_node_incl, nodes_add_node_self.
Qed.

Lemma succs_add_weighted_edge g e u :
  succs (add_weighted_edge g e) u
  = if decide (u = src e) then Dict.set (succs g u) (tgt e) (weight e)
    else succs g u.
Proof.
  unfold add_weighted_edge. unfold succs at 1; simpl.
  destruct (decide (u = src e)) as [->|Hne].
  - rewrite dict_get_set_eq; simpl. by rewrite !succs_add_node.
  - rewrite dict_get_set_ne by done. fold (succs (add_node (add_node g (src e)) (tgt e)) u).
    by rewrite !succs_add_node.
Qed.

Lemma wf_graph_succs g u v w :
  wf_graph g → (v, w) ∈ succs g u → v ∈ nodes g.
Proof.
  intros [_ Hwf] Hin. unfold succs in Hin.
  destruct (Dict.get (adj g) u) as [d|] eqn:Hget; simpl in Hin.
  - apply dict_get_Some in Hget.
    rewrite Forall_forall in Hwf. specialize (Hwf _ Hget). simpl in Hwf.
    rewrite Forall_forall in Hwf. apply (Hwf _ Hin).
  - by apply elem_of_nil in Hin.
Qed.

Lemma wf_graph_empty : wf_graph empty_graph.
Proof. split; [apply NoDup_nil_2 | apply Forall_nil_2]. Qed.

Lemma wf_graph_add_node g n : wf_graph g → wf_graph (add_node g n).
Proof.
  intros [Hnd Hwf]. unfold add_node. destruct (has_node g n) eqn:Hn; [done|].
  assert (n ∉ nodes g) as Hnin by (rewrite <- has_node_nodes; congruence).
  split.
  - unfold nodes, Dict.keys; simpl. rewrite fmap_app. simpl.
    apply NoDup_app. split_and!; [done| |apply NoDup_singleton].
    intros x Hx ->%list_elem_of_singleton. done.
  - simpl. apply Forall_app. split; [|by repeat constructor].
    eapply Forall_impl; [exact Hwf|]. intros [k d] Hd; simpl in *.
    eapply Forall_impl; [exact Hd|]. intros [v w] Hv; simpl in *.
    unfold nodes, Dict.keys; simpl. rewrite fmap_app, elem_of_app. by left.
Qed.

Lemma wf_graph_add_weighted_edge g e :
  wf_graph g → wf_graph (add_weighted_edge g e).
Proof.
  intros Hg.
  pose proof (wf_graph_add_node _ (tgt e) (wf_graph_add_node _ (src e) Hg)) as Hwf2.
  split.
  - rewrite nodes_add_weighted_edge. apply Hwf2.
  - rewrite nodes_add_weighted_edge.
    set (g2 := add_node (add_node g (src e)) (tgt e)) in *.
    unfold add_weighted_edge; fold g2; simpl.
    apply Forall_forall. intros [k d] [Hin| [= -> ->]]%dict_elem_of_set; simpl.
    + destruct Hwf2 as [_ Hwf]. rewrite Forall_forall in Hwf. apply (Hwf _ Hin).
    + apply Forall_forall. intros [v w] [Hin| [= -> ->]]%dict_elem_of_set; simpl.
      * eapply wf_graph_succs; eauto.
      * apply nodes_add_node_self.
Qed.

Lemma wf_graph_add_weighted_edges_from g es :
  wf_graph g → wf_graph (add_weighted_edges_from g es).
Proof.
  unfold add_weighted_edges_from. revert g.
  induction es as [|e es IH]; intros g Hg; simpl; [done|].
  by apply IH, wf_graph_add_weighted_edge.
Qed.

(** Every graph that [build_graph] returns satisfies the invariant. *)
Lemma build_graph_wf es : wf_graph (build_graph es).
Proof. apply wf_graph_add_weighted_edges_from, wf_graph_empty. Qed.

(** The successors of a node stay distinct under insertion. *)
Lemma succs_keys_add_weighted_edges_from g es u :
  Dict.keys (succs (add_weighted_edges_from g es) u)
  = foldl (λ (seen : list Node) e,
             if decide (src e = u ∧ tgt e ∉ seen) then seen ++ [tgt e] else seen)
          (Dict.keys (succs g u)) es.
Proof.
  unfold add_weighted_edges_from. revert g.
  induction es as [|e es IH]; intros g; simpl; [done|].
  rewrite IH, succs_add_weighted_edge. f_equal.
  destruct (decide (u = src e)) as [->|Hne].
  - rewrite dict_keys_set.
    destruct (decide (tgt e ∈ Dict.keys (succs g (src e)))) as [Hin|Hnin].
    + rewrite decide_False; [done | intros [_ ?]; done].
    + by rewrite decide_True.
  - rewrite decide_False; [done | intros [? _]; done].
Qed.

Lemma succs_nodup_add_weighted_edges_from g es u :
  NoDup (Dict.keys (succs g u)) →
  NoDup (Dict.keys (succs (add_weighted_edges_from g es) u)).
Proof.
  rewrite succs_keys_add_weighted_edges_from.
  generalize (Dict.keys (succs g u)) as seen.
  induction es as [|e es IH]; intros seen Hnd; simpl; [done|].
  apply IH. case_decide as Hc; [|done].
  apply NoDup_app. split_and!; [done| |apply NoDup_singleton].
  intros x Hx ->%list_elem_of_singleton. by destruct Hc.
Qed.

Lemma succs_get_add_weighted_edge g e u v :
  (src e, tgt e) ≠ (u, v) →
  Dict.get (succs (add_weighted_edge g e) u) v = Dict.get (succs g u) v.
Proof.
  intros Hne. rewrite succs_add_weighted_edge.
  destruct (decide (u = src e)) as [->|Hu]; [|done].
  apply dict_get_set_ne. congruence.
Qed.

Lemma succs_get_last_write g es1 es2 u v w :
  (∀ w', (u, v, w') ∉ es2) →
  Dict.get (succs (add_weighted_edges_from g (es1 ++ (u, v, w) :: es2)) u) v
  = Some w.
Proof.
  intros Hlast. unfold add_weighted_edges_from.
  rewrite foldl_app; simpl.
  set (g1 := foldl add_weighted_edge g es1). clearbody g1.
  assert (Dict.get (succs (add_weighted_edge g1 (u, v, w)) u) v = Some w) as H0.
  { rewrite succs_add_weighted_edge; simpl.
    rewrite decide_True by done. apply dict_get_set_eq. }
  revert H0. generalize (add_weighted_edge g1 (u, v, w)) as g2.
  induction es2 as [|[[u' v'] w'] es2 IH]; intros g2 Hg2; [done|].
  cbn [foldl]. apply IH.
  - intros w0 Hin. apply (Hlast w0). by right.
  - rewrite succs_get_add_weighted_edge; [done|]. cbn.
    intros [= -> ->]. apply (Hlast w'). left.
Qed.

(** ** The selection of an edge *)

(** [min_by_weight] returns the first item of least weight: the items
    before it are strictly heavier and no item after it is lighter. *)
Lemma min_by_weight_first x l :
  ∃ pre post,
    x :: l = pre ++ min_by_weight x l :: post
    ∧ Forall (λ e, weight (min_by_weight x l) < weight e) pre
    ∧ Forall (λ e, weight (min_by_weight x l) ≤ weight e) post.
Proof.
  revert x. induction l as [|y l IH]; intros x; simpl.
  - exists [], []. by repeat constructor.
  - destruct (decide (weight y < weight x)) as [Hlt|Hge].
    + destruct (IH y) as (pre & post & Heq & Hpre & Hpost).
      set (m := min_by_weight y l) in *.
      assert (weight m ≤ weight y) as Hmy.
      { assert (y ∈ pre ++ m :: post) as Hy by (rewrite <- Heq; left).
        apply elem_of_app in Hy as [Hy|Hy].
        - rewrite Forall_forall in Hpre. specialize (Hpre _ Hy). lia.
        - apply elem_of_cons in Hy as [Hy|Hy]; [rewrite Hy; lia|].
          rewrite Forall_forall in Hpost. by apply Hpost. }
      exists (x :: pre), post. split_and!; [by rewrite Heq | | done].
      constructor; [lia | done].
    + destruct (IH x) as (pre & post & Heq & Hpre & Hpost).
      set (m := min_by_weight x l) in *.
      destruct pre as [|p0 pre]; simpl in Heq.
      * injection Heq as Hx Hl. exists [], (y :: post).
        split_and!; [by rewrite <- Hx, Hl | done |].
        constructor; [rewrite <- Hx; lia | done].
      * injection Heq as Hx Hl. subst p0.
        apply Forall_cons in Hpre as [Hmx Hpre].
        exists (x :: y :: pre), post. split_and!; [by rewrite Hl | | done].
        constructor; [done|]. constructor; [lia | done].
Qed.

Lemma min_by_weight_elem x l : min_by_weight x l ∈ x :: l.
Proof.
  destruct (min_by_weight_first x l) as (pre & post & -> & _).
  rewrite elem_of_app, elem_of_cons. auto.
Qed.

Lemma edges_src g u e : e ∈ edges g u → src e = u.
Proof.
  unfold edges. intros ([v w] & -> & _)%list_elem_of_fmap. done.
Qed.

Lemma outgoing_elem g st e :
  e ∈ outgoing g st ↔ e ∈ edges g (current st) ∧ tgt e ∉ visited st.
Proof. unfold outgoing. rewrite list_elem_of_filter. tauto. Qed.

Lemma outgoing_is_edge g st e :
  e ∈ outgoing g st → is_edge g e ∧ src e = current st ∧ tgt e ∉ visited st.
Proof.
  intros [Hin Hv]%outgoing_elem. pose proof (edges_src _ _ _ Hin) as Hs.
  unfold is_edge. by rewrite Hs.
Qed.

(** What one execution of the loop body does to the state. *)
Lemma loop_body_inr g st st' :
  loop_body g st = inr st' →
  ∃ e, e ∈ outgoing g st
       ∧ path st' = path st ++ [e]
       ∧ current st' = tgt e
       ∧ visited st' = {[tgt e]} ∪ visited st.
Proof.
  unfold loop_body. destruct (outgoing g st) as [|x l] eqn:Hout; [done|].
  intros [= <-]. exists (min_by_weight x l). simpl.
  split_and!; try done. apply min_by_weight_elem.
Qed.

Lemma loop_body_inl g st err :
  loop_body g st = inl err ↔ outgoing g st = [] ∧ err = Stuck (current st).
Proof.
  unfold loop_body. destruct (outgoing g st) as [|x l]; split.
  - by intros [= <-].
  - by intros [_ ->].
  - done.
  - by intros [? _].
Qed.

(** ** The loop invariant *)

Lemma chain_snoc from p e :
  chain from (p ++ [e]) ↔ chain from p ∧ src e = path_end from p.
Proof.
  revert from. induction p as [|e0 p IH]; intros from; simpl.
  - unfold path_end; simpl. tauto.
  - rewrite IH. unfold path_end; simpl. tauto.
Qed.

Lemma path_end_snoc from p e : path_end from (p ++ [e]) = tgt e.
Proof. unfold path_end. by rewrite foldl_snoc. Qed.

Lemma loop_inv_init g start : loop_inv g start (init start).
Proof.
  split; simpl; try done.
  - apply NoDup_singleton.
  - by rewrite (right_id_L ∅ (∪)).
Qed.

Lemma loop_inv_step g start st st' :
  loop_inv g start st → loop_body g st = inr st' → loop_inv g start st'.
Proof.
  intros [He Hc Hcur Hnd Hvis] (e & Hout & Hp & Hcur' & Hvis')%loop_body_inr.
  apply outgoing_is_edge in Hout as (Hedge & Hsrc & Hnew).
  split; rewrite Hp.
  - apply Forall_app. split; [done | by constructor].
  - apply chain_snoc. split; [done | congruence].
  - by rewrite path_end_snoc.
  - rewrite fmap_snoc, app_comm_cons. apply NoDup_app.
    split_and!; [done | | apply NoDup_singleton].
    intros x Hx ->%list_elem_of_singleton. apply Hnew.
    rewrite Hvis. by apply elem_of_list_to_set.
  - rewrite Hvis', Hvis, fmap_snoc, app_comm_cons, list_to_set_app_L.
    simpl. rewrite (right_id_L ∅ (∪) {[tgt e]}). apply (comm_L (∪)).
Qed.

Lemma iterate_inv k g end_ start st st' :
  loop_inv g start st → iterate k g end_ st = Some st' → loop_inv g start st'.
Proof.
  revert st. induction k as [|k IH]; intros st Hinv; simpl.
  - by intros [= <-].
  - case_decide; [done|]. destruct (loop_body g st) as [|st1] eqn:Hb; [done|].
    apply IH. by eapply loop_inv_step.
Qed.

Lemma iterate_path_length k g end_ st st' :
  iterate k g end_ st = Some st' → length (path st') = (length (path st) + k)%nat.
Proof.
  revert st. induction k as [|k IH]; intros st; simpl.
  - intros [= <-]. lia.
  - case_decide; [done|]. destruct (loop_body g st) as [|st1] eqn:Hb; [done|].
    intros ->%IH. apply loop_body_inr in Hb as (e & _ & -> & _).
    rewrite length_app; simpl. lia.
Qed.

(** A path that the loop returns is the path of a state that satisfies the
    invariant and whose current node is [end]. *)
Lemma while_loop_returns fuel g end_ start st p :
  loop_inv g start st →
  while_loop fuel g end_ st = Some (inr p) →
  ∃ st', loop_inv g start st' ∧ path st' = p ∧ current st' = end_.
Proof.
  revert st. induction fuel as [|fuel IH]; intros st Hinv; simpl.
  - case_decide; [|done]. intros [= <-]. eauto.
  - case_decide; [intros [= <-]; eauto|].
    destruct (loop_body g st) as [|st1] eqn:Hb; [done|].
    apply IH. by eapply loop_inv_step.
Qed.

(** The loop raises nothing but [Stuck]. *)
Lemma while_loop_fails fuel g end_ st err :
  while_loop fuel g end_ st = Some (inl err) → ∃ n, err = Stuck n.
Proof.
  revert st. induction fuel as [|fuel IH]; intros st; simpl.
  - by case_decide.
  - case_decide; [done|].
    destruct (loop_body g st) as [e|st1] eqn:Hb; [|by apply IH].
    apply loop_body_inl in Hb as [_ ->]. intros [= <-]. eauto.
Qed.

(** More fuel does not change a result. *)
Lemma while_loop_mono fuel fuel' g end_ st r :
  (fuel ≤ fuel')%nat →
  while_loop fuel g end_ st = Some r → while_loop fuel' g end_ st = Some r.
Proof.
  revert fuel' st. induction fuel as [|fuel IH]; intros fuel' st Hle; simpl.
  - case_decide as Hc; [|done]. intros <-.
    destruct fuel'; simpl; by rewrite decide_True.
  - destruct fuel' as [|fuel']; [lia|]. simpl. case_decide; [done|].
    destruct (loop_body g st); [done|]. apply IH. lia.
Qed.

(** ** Termination *)

(** The nodes on the path are distinct nodes of the graph, so the path has
    fewer edges than the graph has nodes. *)
Lemma loop_inv_path_length g start st :
  wf_graph g → has_node g start = true → loop_inv g start st →
  (length (path st) < length (nodes g))%nat.
Proof.
  intros Hwf Hs [He _ _ Hnd _].
  assert (length (start :: (tgt <$> path st)) ≤ length (nodes g))%nat as Hle.
  { apply submseteq_length, NoDup_submseteq; [done|].
    intros x [->|Hx]%elem_of_cons; [by apply has_node_nodes|].
    apply list_elem_of_fmap in Hx as (e & -> & Hin).
    rewrite Forall_forall in He. specialize (He _ Hin).
    unfold is_edge, edges in He.
    apply list_elem_of_fmap in He as ([v w] & Heq & Hvw).
    assert (tgt e = v) as -> by (by rewrite Heq).
    by eapply wf_graph_succs. }
  simpl in Hle. rewrite length_fmap in Hle. lia.
Qed.

Lemma while_loop_terminates fuel g end_ start st :
  wf_graph g → has_node g start = true → loop_inv g start st →
  (length (nodes g) ≤ length (path st) + fuel)%nat →
  ∃ r, while_loop fuel g end_ st = Some r.
Proof.
  intros Hwf Hs. revert st.
  induction fuel as [|fuel IH]; intros st Hinv Hlen; simpl.
  - pose proof (loop_inv_path_length _ _ _ Hwf Hs Hinv). lia.
  - case_decide; [eauto|].
    destruct (loop_body g st) as [err|st1] eqn:Hb; [eauto|].
    apply IH; [by eapply loop_inv_step|].
    apply loop_body_inr in Hb as (e & _ & -> & _).
    rewrite length_app; simpl. lia.
Qed.

(** After [k] executions of the body the loop goes on from the state they
    lead to. *)
Lemma while_loop_iterate k fuel g end_ st st' :
  iterate k g end_ st = Some st' →
  while_loop (k + fuel) g end_ st = while_loop fuel g end_ st'.
Proof.
  revert st. induction k as [|k IH]; intros st; simpl.
  - by intros [= <-].
  - case_decide; [done|].
    destruct (loop_body g st) as [err|st1] eqn:Hb; [done|]. apply IH.
Qed.

Lemma greedy_path_fuel_present fuel g s e :
  has_node g s = true → has_node g e = true →
  greedy_path_fuel fuel g s e = while_loop fuel g e (init s).
Proof. unfold greedy_path_fuel. by intros -> ->. Qed.

(** * The claims *)

(** C1.  On the reference data, from [A] towards [E], the loop body runs
    three times, appending [(A,C,2)], [(C,B,1)] and [(B,D,2)]; the fourth
    execution, at [D], raises [Stuck] for [D], which is the result of the
    call, and no amount of fuel makes the call return a path. *)
Theorem sample_walk_stuck_at_D :
  let g := build_graph SAMPLE_EDGES in
  ∃ st,
    iterate 3 g END_NODE (init START_NODE) = Some st
    ∧ path st = [("A", "C", 2); ("C", "B", 1); ("B", "D", 2)]%string
    ∧ current st = "D"%string
    ∧ loop_body g st = inl (Stuck "D")
    ∧ greedy_path g START_NODE END_NODE = Some (inl (Stuck "D"))
    ∧ ∀ fuel p, greedy_path_fuel fuel g START_NODE END_NODE ≠ Some (inr p).
Proof.
  intros g. eexists. split; [vm_compute; reflexivity|].
  split_and!; try (vm_compute; reflexivity).
  intros fuel p.
  do 4 (destruct fuel as [|fuel]; [by vm_compute|]).
  assert (greedy_path_fuel 4 g START_NODE END_NODE = Some (inl (Stuck "D")))
    as H4 by (vm_compute; reflexivity).
  rewrite greedy_path_fuel_present in * by (vm_compute; reflexivity).
  apply (while_loop_mono 4 (S (S (S (S fuel))))) in H4; [|lia].
  by rewrite H4.
Qed.

(** ** The order of the candidates *)

Lemma edges_targets g u : tgt <$> edges g u = Dict.keys (succs g u).
Proof.
  unfold edges, Dict.keys. rewrite <- list_fmap_compose.
  by apply list_fmap_ext.
Qed.

(** The graph lists the edges that leave a node in the order in which the
    input first mentions them. *)
Lemma edges_build_graph_order es u :
  tgt <$> edges (build_graph es) u = insertion_order es u.
Proof.
  rewrite edges_targets. unfold build_graph; simpl.
  by rewrite succs_keys_add_weighted_edges_from.
Qed.

(** C2.  The edge that an execution of the loop body appends is a
    candidate (an edge that leaves the current node for an unvisited
    node); the candidates listed before it are strictly heavier and
    those listed after it are at least as heavy, so it is the first
    candidate of minimum weight.  The candidates are listed in the
    graph's order for the current node, which for a graph made by
    [build_graph] is the order of first insertion. *)
Theorem loop_body_first_minimum g st st' :
  loop_body g st = inr st' →
  ∃ e pre post,
    path st' = path st ++ [e]
    ∧ filter (λ e', tgt e' ∉ visited st) (edges g (current st))
      = pre ++ e :: post
    ∧ Forall (λ e', weight e < weight e') pre
    ∧ Forall (λ e', weight e ≤ weight e') post
    ∧ ∀ es, g = build_graph es →
        tgt <$> edges g (current st) = insertion_order es (current st).
Proof.
  unfold loop_body. fold (outgoing g st).
  destruct (outgoing g st) as [|x l] eqn:Hout; [done|]. intros [= <-].
  destruct (min_by_weight_first x l) as (pre & post & Heq & Hpre & Hpost).
  exists (min_by_weight x l), pre, post. simpl. split_and!; try done.
  intros es ->. apply edges_build_graph_order.
Qed.

Lemma loop_body_first_minimum_witness :
  ∃ st', loop_body (build_graph TIED_EDGES) (init "A") = inr st'
  ∧ ∃ e pre post,
    path st' = path (init "A") ++ [e]
    ∧ filter (λ e', tgt e' ∉ visited (init "A"))
             (edges (build_graph TIED_EDGES) (current (init "A")))
      = pre ++ e :: post
    ∧ Forall (λ e', weight e < weight e') pre
    ∧ Forall (λ e', weight e ≤ weight e') post
    ∧ ∀ es, build_graph TIED_EDGES = build_graph es →
        tgt <$> edges (build_graph TIED_EDGES) (current (init "A"))
        = insertion_order es (current (init "A")).
Proof.
  eexists. split; [vm_compute; reflexivity|].
  apply (loop_body_first_minimum (build_graph TIED_EDGES) (init "A")).
  vm_compute; reflexivity.
Defined.

(** C3.  When [k] executions of the loop body lead from the initial state
    to a state whose current node is not [end] and has no edge to an
    unvisited node, the call raises [Stuck] for that node: with any fuel
    above [k], and with the fuel of [greedy_path] when the graph is well
    formed.  The result is the error; no path comes with it. *)
Theorem stuck_raises g s e k st :
  has_node g s = true → has_node g e = true →
  iterate k g e (init s) = Some st →
  current st ≠ e →
  filter (λ e', tgt e' ∉ visited st) (edges g (current st)) = [] →
  (∀ fuel, (k < fuel)%nat →
     greedy_path_fuel fuel g s e = Some (inl (Stuck (current st))))
  ∧ (wf_graph g → greedy_path g s e = Some (inl (Stuck (current st)))).
Proof.
  intros Hs He Hk Hcur Hout.
  assert (∀ fuel, (k < fuel)%nat →
            greedy_path_fuel fuel g s e = Some (inl (Stuck (current st))))
    as Hfuel.
  { intros fuel Hlt. rewrite greedy_path_fuel_present by done.
    replace fuel with (k + S (fuel - S k))%nat by lia.
    rewrite (while_loop_iterate _ _ _ _ _ _ Hk). simpl.
    rewrite decide_False by done.
    unfold loop_body, outgoing. by rewrite Hout. }
  split; [done|]. intros Hwf. apply Hfuel.
  pose proof (iterate_inv _ _ _ _ _ _ (loop_inv_init g s) Hk) as Hinv.
  pose proof (loop_inv_path_length _ _ _ Hwf Hs Hinv) as Hlen.
  rewrite (iterate_path_length _ _ _ _ _ Hk) in Hlen. simpl in Hlen. lia.
Qed.

Lemma stuck_raises_witness :
  (∀ fuel, (3 < fuel)%nat →
     greedy_path_fuel fuel (build_graph SAMPLE_EDGES) "A" "E"
     = Some (inl (Stuck "D")))
  ∧ (wf_graph (build_graph SAMPLE_EDGES) →
     greedy_path (build_graph SAMPLE_EDGES) "A" "E" = Some (inl (Stuck "D"))).
Proof.
  refine (stuck_raises (build_graph SAMPLE_EDGES) "A" "E" 3
            (default (init "A")
               (iterate 3 (build_graph SAMPLE_EDGES) "E" (init "A")))
            _ _ _ _ _);
    vm_compute; first [reflexivity | discriminate].
Defined.

(** C4.  A call whose start or end is not a node of the graph raises
    [InvalidArgument] whatever the fuel, so also with none, before the loop
    is entered; a call whose start and end are nodes never raises it. *)
Theorem invalid_argument_iff fuel g s e :
  (has_node g s = false ∨ has_node g e = false →
     greedy_path_fuel fuel g s e = Some (inl InvalidArgument))
  ∧ (has_node g s = true → has_node g e = true →
     greedy_path_fuel fuel g s e ≠ Some (inl InvalidArgument)).
Proof.
  split.
  - unfold greedy_path_fuel. by intros [-> | ->]; [|rewrite orb_true_r].
  - intros Hs He. rewrite greedy_path_fuel_present by done.
    intros (n & [=])%while_loop_fails.
Qed.

Lemma invalid_argument_iff_witness :
  greedy_path_fuel 0 (build_graph SAMPLE_EDGES) "A" "Z"
  = Some (inl InvalidArgument)
  ∧ greedy_path_fuel 0 (build_graph SAMPLE_EDGES) "Z" "A"
    = Some (inl InvalidArgument)
  ∧ greedy_path_fuel 5 (build_graph SAMPLE_EDGES) "A" "E"
    ≠ Some (inl InvalidArgument).
Proof.
  split_and!.
  - apply (proj1 (invalid_argument_iff 0 (build_graph SAMPLE_EDGES) "A" "Z")).
    right. reflexivity.
  - apply (proj1 (invalid_argument_iff 0 (build_graph SAMPLE_EDGES) "Z" "A")).
    left. reflexivity.
  - apply (proj2 (invalid_argument_iff 5 (build_graph SAMPLE_EDGES) "A" "E"));
      reflexivity.
Defined.

(** C5.  With [end = start], a node of the graph, the call returns the
    empty path: whatever the fuel, so without any execution of the loop
    body, and the body cannot be entered from the initial state. *)
Theorem same_start_end_empty_path g s :
  has_node g s = true →
  (∀ fuel, greedy_path_fuel fuel g s s = Some (inr []))
  ∧ greedy_path g s s = Some (inr [])
  ∧ iterate 1 g s (init s) = None.
Proof.
  intros Hs.
  assert (∀ fuel, greedy_path_fuel fuel g s s = Some (inr [])) as H.
  { intros fuel. rewrite greedy_path_fuel_present by done.
    destruct fuel; simpl; by rewrite decide_True. }
  split_and!; [done | apply H |]. simpl. by rewrite decide_True.
Qed.

Lemma same_start_end_empty_path_witness :
  (∀ fuel, greedy_path_fuel fuel (build_graph SAMPLE_EDGES) "B" "B"
           = Some (inr []))
  ∧ greedy_path (build_graph SAMPLE_EDGES) "B" "B" = Some (inr [])
  ∧ iterate 1 (build_graph SAMPLE_EDGES) "B" (init "B") = None.
Proof.
  apply (same_start_end_empty_path (build_graph SAMPLE_EDGES) "B").
  reflexivity.
Defined.

(** ** Returned paths *)

Lemma greedy_path_fuel_returns fuel g s e p :
  greedy_path_fuel fuel g s e = Some (inr p) →
  ∃ st, loop_inv g s st ∧ path st = p ∧ current st = e.
Proof.
  unfold greedy_path_fuel.
  destruct (negb (has_node g s) || negb (has_node g e)); [done|].
  apply while_loop_returns, loop_inv_init.
Qed.

Lemma chain_consecutive from p i x y :
  chain from p → p !! i = Some x → p !! S i = Some y → tgt x = src y.
Proof.
  revert from i. induction p as [|e0 p IH]; intros from i; [done|].
  simpl. intros [_ Hc]. destruct i as [|i]; simpl.
  - intros [= ->]. destruct p as [|e1 p]; [done|]. simpl.
    intros [= ->]. by destruct Hc.
  - by apply (IH (tgt e0)).
Qed.

(** C6.  In a path that the walker returns the targets of the edges are
    pairwise distinct and none of them is the start node. *)
Theorem returned_path_simple fuel g s e p :
  greedy_path_fuel fuel g s e = Some (inr p) →
  NoDup (tgt <$> p) ∧ s ∉ tgt <$> p.
Proof.
  intros (st & [_ _ _ Hnd _] & <- & _)%greedy_path_fuel_returns.
  apply NoDup_cons in Hnd. tauto.
Qed.

Lemma returned_path_simple_witness :
  NoDup (tgt <$> [("A", "C", 2); ("C", "B", 1)]%string)
  ∧ "A"%string ∉ tgt <$> [("A", "C", 2); ("C", "B", 1)]%string.
Proof.
  apply (returned_path_simple 5 (build_graph SAMPLE_EDGES) "A" "B").
  vm_compute. reflexivity.
Defined.

(** C7.  A path that the walker returns is a chain from start to end: its
    first edge leaves the start node, each edge ends where the next one
    begins, its last edge ends at the end node, and it is empty only when
    start and end are the same node. *)
Theorem returned_path_chain fuel g s e p :
  greedy_path_fuel fuel g s e = Some (inr p) →
  (∀ x, head p = Some x → src x = s)
  ∧ (∀ i x y, p !! i = Some x → p !! S i = Some y → tgt x = src y)
  ∧ (∀ x, last p = Some x → tgt x = e)
  ∧ (p = [] → s = e).
Proof.
  intros (st & [_ Hc Hcur _ _] & <- & <-)%greedy_path_fuel_returns.
  split_and!.
  - destruct (path st) as [|x0 p]; [done|]. simpl in *.
    intros x [= <-]. tauto.
  - intros i x y. by apply (chain_consecutive s).
  - intros x (l' & Hl)%last_Some. by rewrite Hcur, Hl, path_end_snoc.
  - intros Hnil. by rewrite Hcur, Hnil.
Qed.

Lemma returned_path_chain_witness :
  (∀ x, head [("A", "C", 2); ("C", "B", 1)]%string = Some x
        → src x = "A"%string)
  ∧ (∀ i x y, [("A", "C", 2); ("C", "B", 1)]%string !! i = Some x
              → [("A", "C", 2); ("C", "B", 1)]%string !! S i = Some y
              → tgt x = src y)
  ∧ (∀ x, last [("A", "C", 2); ("C", "B", 1)]%string = Some x
          → tgt x = "B"%string)
  ∧ ([("A", "C", 2); ("C", "B", 1)]%string = [] → "A"%string = "B"%string).
Proof.
  apply (returned_path_chain 5 (build_graph SAMPLE_EDGES) "A" "B").
  vm_compute. reflexivity.
Defined.

(** ** Totality *)

Lemma greedy_path_total g s e :
  wf_graph g → has_node g s = true → has_node g e = true →
  ∃ r, greedy_path g s e = Some r
       ∧ (∀ fuel, (length (nodes g) ≤ fuel)%nat →
            greedy_path_fuel fuel g s e = Some r)
       ∧ ((∃ p, r = inr p) ∨ (∃ n, r = inl (Stuck n))).
Proof.
  intros Hwf Hs He. unfold greedy_path.
  rewrite greedy_path_fuel_present by done.
  destruct (while_loop_terminates (length (nodes g)) g e s (init s))
    as [r Hr]; [done | done | apply loop_inv_init | simpl; lia |].
  exists r. split_and!; [done | |].
  - intros fuel Hle. rewrite greedy_path_fuel_present by done.
    by eapply while_loop_mono.
  - destruct r as [err|p]; [right | by eauto].
    apply while_loop_fails in Hr as [n ->]. by exists n.
Qed.

(** C8.  In a well-formed graph, if no path without revisits leads from
    the start node to the end node, both nodes of the graph, the walker
    raises [Stuck]. *)
Theorem unreachable_stuck g s e :
  wf_graph g → has_node g s = true → has_node g e = true →
  (¬ ∃ p, simple_path g s e p) →
  ∃ n, greedy_path g s e = Some (inl (Stuck n))
       ∧ ∀ fuel, (length (nodes g) ≤ fuel)%nat →
           greedy_path_fuel fuel g s e = Some (inl (Stuck n)).
Proof.
  intros Hwf Hs He Hunreach.
  destruct (greedy_path_total g s e Hwf Hs He)
    as (r & Hr & Hfuel & [[p ->] | [n ->]]); [|by eauto].
  destruct Hunreach. exists p.
  apply greedy_path_fuel_returns in Hr as (st & [Hed Hc Hcur Hnd _] & <- & <-).
  by split_and!.
Qed.

Lemma unreachable_stuck_witness :
  ∃ n, greedy_path (build_graph SAMPLE_EDGES) "D" "A" = Some (inl (Stuck n))
       ∧ ∀ fuel, (length (nodes (build_graph SAMPLE_EDGES)) ≤ fuel)%nat →
           greedy_path_fuel fuel (build_graph SAMPLE_EDGES) "D" "A"
           = Some (inl (Stuck n)).
Proof.
  apply (unreachable_stuck (build_graph SAMPLE_EDGES) "D" "A").
  - apply (bool_decide_unpack (wf_graph _)). vm_compute. exact I.
  - reflexivity.
  - reflexivity.
  - intros [p (Hed & Hc & Hend & _)]. destruct p as [|x p].
    + vm_compute in Hend. discriminate.
    + apply Forall_cons in Hed as [Hx _]. destruct Hc as [Hsrc _].
      unfold is_edge in Hx. rewrite Hsrc in Hx. vm_compute in Hx.
      inversion Hx.
Defined.

(** ** Duplicate insertions *)

Lemma succs_nodup_build_graph es u :
  NoDup (Dict.keys (succs (build_graph es) u)).
Proof.
  unfold build_graph; simpl. apply succs_nodup_add_weighted_edges_from.
  apply NoDup_nil_2.
Qed.

Lemma edges_filter_target g u v :
  filter (λ e, tgt e = v) (edges g u)
  = (λ vw : Node * Z, (u, vw.1, vw.2))
      <$> filter (λ vw : Node * Z, vw.1 = v) (succs g u).
Proof.
  unfold edges. induction (succs g u) as [|[v0 w0] d IH]; [done|].
  csimpl. rewrite !filter_cons; simpl. unfold tgt at 1; simpl.
  destruct (decide (v0 = v)); csimpl; by rewrite IH.
Qed.

(** C9.  When [(u, v, w)] is the last triple of the input for the ordered
    pair [(u, v)], the graph has one edge from [u] to [v], and its weight
    is [w], whatever triples for the pair come earlier in the input. *)
Theorem build_graph_last_write_wins es1 es2 u v w :
  (∀ w', (u, v, w') ∉ es2) →
  filter (λ e, tgt e = v) (edges (build_graph (es1 ++ (u, v, w) :: es2)) u)
  = [(u, v, w)].
Proof.
  intros Hlast. rewrite edges_filter_target.
  rewrite (dict_filter_key _ v w); [done | apply succs_nodup_build_graph |].
  by apply succs_get_last_write.
Qed.

Lemma build_graph_last_write_wins_witness :
  filter (λ e, tgt e = "B"%string)
    (edges (build_graph REPEATED_EDGES) "A")
  = [("A", "B", 7)]%string.
Proof.
  apply (build_graph_last_write_wins
           [("A", "B", 1); ("A", "C", 3)]%string [("A", "C", 5)]%string
           "A" "B" 7).
  intros w' Hin. apply list_elem_of_singleton in Hin. discriminate.
Defined.

(** ** The visited set *)

Lemma loop_inv_size_visited g start st :
  loop_inv g start st → size (visited st) = S (length (path st)).
Proof.
  intros [_ _ _ Hnd Hvis]. rewrite Hvis, size_list_to_set by done.
  simpl. by rewrite length_fmap.
Qed.

(** C10.  On a well-formed graph, with start and end among its nodes: an
    execution of the loop body that does not raise moves to a node that
    was not visited and adds it to the visited set; after [k] such
    executions the set has [k + 1] elements and [k] is below the number of
    nodes; and the call has a result with as much fuel as the graph has
    nodes, the same with more, which is a path or the [Stuck] error. *)
Theorem greedy_path_terminates g s e :
  wf_graph g → has_node g s = true → has_node g e = true →
  (∀ st st', loop_body g st = inr st' →
     (current st' ∉ visited st) ∧ visited st' = {[current st']} ∪ visited st)
  ∧ (∀ k st, iterate k g e (init s) = Some st →
       size (visited st) = S k ∧ (k < length (nodes g))%nat)
  ∧ ∃ r, greedy_path g s e = Some r
         ∧ (∀ fuel, (length (nodes g) ≤ fuel)%nat →
              greedy_path_fuel fuel g s e = Some r)
         ∧ ((∃ p, r = inr p) ∨ (∃ n, r = inl (Stuck n))).
Proof.
  intros Hwf Hs He. split_and!.
  - intros st st' (x & Hout & _ & -> & ->)%loop_body_inr.
    by apply outgoing_is_edge in Hout as (_ & _ & Hnew).
  - intros k st Hk.
    pose proof (iterate_inv _ _ _ _ _ _ (loop_inv_init g s) Hk) as Hinv.
    pose proof (loop_inv_path_length _ _ _ Hwf Hs Hinv) as Hlen.
    rewrite (loop_inv_size_visited _ _ _ Hinv).
    rewrite (iterate_path_length _ _ _ _ _ Hk) in *. simpl in *. done.
  - by apply greedy_path_total.
Qed.

Lemma greedy_path_terminates_witness :
  (∀ st st', loop_body (build_graph SAMPLE_EDGES) st = inr st' →
     (current st' ∉ visited st) ∧ visited st' = {[current st']} ∪ visited st)
  ∧ (∀ k st, iterate k (build_graph SAMPLE_EDGES) "E" (init "A") = Some st →
       size (visited st) = S k
       ∧ (k < length (nodes (build_graph SAMPLE_EDGES)))%nat)
  ∧ ∃ r, greedy_path (build_graph SAMPLE_EDGES) "A" "E" = Some r
         ∧ (∀ fuel, (length (nodes (build_graph SAMPLE_EDGES)) ≤ fuel)%nat →
              greedy_path_fuel fuel (build_graph SAMPLE_EDGES) "A" "E" = Some r)
         ∧ ((∃ p, r = inr p) ∨ (∃ n, r = inl (Stuck n))).
Proof.
  apply (greedy_path_terminates (build_graph SAMPLE_EDGES) "A" "E").
  - apply (bool_decide_unpack (wf_graph _)). vm_compute. exact I.
  - reflexivity.
  - reflexivity.
Defined.

(** * Further properties *)

(** ** Nodes and edges of a built graph *)

Lemma nodes_add_node_iff g n x :
  x ∈ nodes (add_node g n) ↔ x ∈ nodes g ∨ x = n.
Proof.
  rewrite nodes_add_node. case_decide as Hn.
  - split; [auto | by intros [?| ->]].
  - by rewrite elem_of_app, list_elem_of_singleton.
Qed.

Lemma nodes_add_weighted_edge_iff g e x :
  x ∈ nodes (add_weighted_edge g e) ↔ x ∈ nodes g ∨ x = src e ∨ x = tgt e.
Proof.
  rewrite nodes_add_weighted_edge, !nodes_add_node_iff. tauto.
Qed.

Lemma nodes_add_weighted_edges_from g es x :
  x ∈ nodes (add_weighted_edges_from g es) ↔ x ∈ nodes g ∨ mentions es x.
Proof.
  unfold add_weighted_edges_from, mentions. revert g.
  induction es as [|e es IH]; intros g; simpl.
  - split; [auto|]. intros [?|(e & []%elem_of_nil & _)]; done.
  - rewrite IH, nodes_add_weighted_edge_iff. split.
    + intros [[?|Hx]|(e' & Hin & He')]; [by left | |].
      * right. exists e. split; [left | destruct Hx; auto].
      * right. exists e'. split; [by right | done].
    + intros [?|(e' & [->|Hin]%elem_of_cons & He')].
      * by left; left.
      * left; right. destruct He'; auto.
      * right. by exists e'.
Qed.

Lemma has_node_build_graph es n :
  has_node (build_graph es) n = true ↔ mentions es n.
Proof.
  rewrite has_node_nodes. unfold build_graph; simpl.
  rewrite nodes_add_weighted_edges_from. split; [|auto].
  intros [[]%elem_of_nil|?]; done.
Qed.

(** X1.  The nodes of the graph that [build_graph] returns are the end
    points of the input triples: [n in graph] holds exactly when some
    triple starts or ends at [n]. *)
Theorem build_graph_has_node es n :
  has_node (build_graph es) n = true ↔ mentions es n.
Proof.
  unfold has_node. rewrite dict_mem_keys. fold (nodes (build_graph es)).
  unfold build_graph; simpl. rewrite nodes_add_weighted_edges_from.
  split; [|by right]. intros [Hempty|Hm]; [|done].
  by apply elem_of_nil in Hempty.
Qed.

Lemma build_graph_has_node_witness :
  has_node (build_graph SAMPLE_EDGES) "D" = true
  ∧ mentions SAMPLE_EDGES "D".
Proof.
  split.
  - apply (proj2 (build_graph_has_node SAMPLE_EDGES "D")).
    exists ("B", "D", 2)%string. split; [|by right].
    apply (bool_decide_unpack _). vm_compute. exact I.
  - apply (proj1 (build_graph_has_node SAMPLE_EDGES "D")). reflexivity.
Defined.

(** X2.  On a graph made by [build_graph] the walker raises
    [InvalidArgument] exactly when the start or the end node occurs in no
    input triple; in particular it does for every call on the graph of the
    empty list. *)
Theorem greedy_path_invalid_argument_iff fuel es s e :
  greedy_path_fuel fuel (build_graph es) s e = Some (inl InvalidArgument)
  ↔ ¬ (mentions es s ∧ mentions es e).
Proof.
  rewrite <- !has_node_build_graph. unfold greedy_path_fuel.
  destruct (has_node (build_graph es) s) eqn:Hs,
           (has_node (build_graph es) e) eqn:He; simpl.
  - split; [|by intros []]. intros (n & [=])%while_loop_fails.
  - split; [by intros _ [_ ?] | done].
  - split; [by intros _ [? _] | done].
  - split; [by intros _ [? _] | done].
Qed.

Lemma greedy_path_invalid_argument_iff_witness :
  greedy_path_fuel 0 (build_graph []) "A" "B" = Some (inl InvalidArgument).
Proof.
  apply (proj2 (greedy_path_invalid_argument_iff 0 [] "A" "B")).
  intros [(e & Hin & _) _]. by apply elem_of_nil in Hin.
Defined.

Lemma dict_elem_of_get {V} (d : list (Node * V)) k v :
  NoDup (Dict.keys d) → (k, v) ∈ d ↔ Dict.get d k = Some v.
Proof.
  intros Hnd. split; [|apply dict_get_Some].
  unfold Dict.keys in Hnd. induction d as [|[k' v'] d IH]; simpl.
  - by intros ?%elem_of_nil.
  - apply NoDup_cons in Hnd as [Hk' Hnd].
    intros [[= -> ->]|Hin]%elem_of_cons; [by rewrite decide_True|].
    rewrite decide_False; [by apply IH|].
    intros ->. apply Hk'. apply list_elem_of_fmap. by exists (k', v).
Qed.

Lemma succs_get_add_weighted_edges_from_inv g es u v w :
  Dict.get (succs (add_weighted_edges_from g es) u) v = Some w →
  last_for_pair es (u, v, w)
  ∨ (Dict.get (succs g u) v = Some w ∧ ∀ w', (u, v, w') ∉ es).
Proof.
  unfold add_weighted_edges_from, last_for_pair, src, tgt; simpl.
  induction es as [|e0 es IH] using rev_ind.
  - right. split; [done | intros w'; apply not_elem_of_nil].
  - rewrite foldl_snoc.
    destruct (decide ((src e0, tgt e0) = (u, v))) as [Heq|Hne].
    + injection Heq as Hs Ht. rewrite succs_add_weighted_edge.
      rewrite decide_True by done. rewrite <- Ht, dict_get_set_eq.
      intros [= Hw]. left. exists es, []. split.
      * destruct e0 as [[a b] c]. unfold src, tgt, weight in *; simpl in *.
        by subst.
      * intros w'; apply not_elem_of_nil.
    + rewrite succs_get_add_weighted_edge by done.
      intros [(es1 & es2 & -> & Hl) | [Hg Hn]]%IH.
      * left. exists es1, (es2 ++ [e0]). split; [by rewrite <- app_assoc|].
        intros w' [Hin|Hin]%elem_of_app; [by eapply Hl|].
        apply list_elem_of_singleton in Hin. by subst e0.
      * right. split; [done|].
        intros w' [Hin|Hin]%elem_of_app; [by eapply Hn|].
        apply list_elem_of_singleton in Hin. by subst e0.
Qed.

(** X3.  The edges of the graph that [build_graph] returns are the input
    triples that are the last of their ordered pair: nothing else is an
    edge, and an earlier triple for a pair that is given again is none. *)
Theorem build_graph_edges_iff es u e :
  e ∈ edges (build_graph es) u ↔ src e = u ∧ last_for_pair es e.
Proof.
  destruct e as [[a b] c]. unfold edges. rewrite list_elem_of_fmap. split.
  - intros ([v w] & [= -> -> ->] & Hin). split; [done|]. simpl in Hin.
    apply dict_elem_of_get in Hin; [|apply succs_nodup_build_graph].
    apply succs_get_add_weighted_edges_from_inv in Hin as [?|[Hget _]]; [done|].
    discriminate Hget.
  - unfold src at 1; simpl. intros [-> (es1 & es2 & -> & Hl)].
    exists (b, c). split; [done|].
    apply dict_elem_of_get; [apply succs_nodup_build_graph|].
    by apply succs_get_last_write.
Qed.

Lemma build_graph_edges_iff_witness :
  ("A", "B", 7)%string ∈ edges (build_graph REPEATED_EDGES) "A"
  ∧ ¬ ("A", "B", 1)%string ∈ edges (build_graph REPEATED_EDGES) "A".
Proof.
  split.
  - apply (proj2 (build_graph_edges_iff REPEATED_EDGES "A" ("A", "B", 7)%string)).
    split; [reflexivity|].
    exists [("A", "B", 1); ("A", "C", 3)]%string, [("A", "C", 5)]%string.
    split; [reflexivity|].
    intros w Hin. apply list_elem_of_singleton in Hin. discriminate.
  - intros Hin.
    apply (proj1 (build_graph_edges_iff REPEATED_EDGES "A" ("A", "B", 1)%string))
      in Hin as [_ (es1 & es2 & Heq & Hl)].
    destruct es1 as [|x1 es1]; simpl in Heq.
    + injection Heq as <-. apply (Hl 7). vm_compute. right. left.
    + injection Heq as _ Heq. destruct es1 as [|x2 es1]; [discriminate|].
      injection Heq as _ Heq. destruct es1 as [|x3 es1]; [discriminate|].
      injection Heq as _ Heq. destruct es1 as [|x4 es1]; [discriminate|].
      injection Heq as _ Heq. by destruct es1.
Defined.






Lemma edges_source_node g u e : e ∈ edges g u → u ∈ nodes g.
Proof.
  unfold edges, succs. intros ([v w] & _ & Hin)%list_elem_of_fmap.
  apply dict_get_is_Some.
  destruct (Dict.get (adj g) u); [done | by apply elem_of_nil in Hin].
Qed.

Lemma edges_target_node g u e :
  wf_graph g → e ∈ edges g u → tgt e ∈ nodes g.
Proof.
  unfold edges. intros Hwf ([v w] & -> & Hin)%list_elem_of_fmap.
  by eapply wf_graph_succs.
Qed.

(** X5.  Every graph that [build_graph] returns is well formed: its nodes
    are listed once, the edges that leave a node go to distinct nodes (one
    edge per ordered pair), and both ends of every edge are nodes. *)
Theorem build_graph_invariant es u :
  wf_graph (build_graph es)
  ∧ NoDup (tgt <$> edges (build_graph es) u)
  ∧ ∀ e, e ∈ edges (build_graph es) u →
      src e = u ∧ u ∈ nodes (build_graph es) ∧ tgt e ∈ nodes (build_graph es).
Proof.
  split_and!.
  - apply build_graph_wf.
  - rewrite edges_targets. apply succs_nodup_build_graph.
  - intros e Hin. split_and!.
    + by eapply edges_src.
    + by eapply edges_source_node.
    + eapply edges_target_node; [apply build_graph_wf | done].
Qed.

Lemma build_graph_invariant_witness :
  ("C" : Node) ∈ nodes (build_graph SAMPLE_EDGES).
Proof.
  apply (proj2 (proj2 (build_graph_invariant SAMPLE_EDGES "B"))
           ("B", "C", 4)%string).
  apply (bool_decide_unpack _). vm_compute. exact I.
Defined.

(** ** More on what the walker returns and raises *)

(** A property that the loop body preserves holds of the state from which
    the loop returns. *)
Lemma while_loop_returns_with (P : state → Prop) fuel g end_ start st p :
  (∀ st st', loop_inv g start st → P st → loop_body g st = inr st' → P st') →
  loop_inv g start st → P st →
  while_loop fuel g end_ st = Some (inr p) →
  ∃ st', loop_inv g start st' ∧ P st' ∧ path st' = p ∧ current st' = end_.
Proof.
  intros Hstep. revert st.
  induction fuel as [|fuel IH]; intros st Hinv HP; simpl.
  - case_decide; [|done]. intros [= <-]. eauto.
  - case_decide; [intros [= <-]; eauto|].
    destruct (loop_body g st) as [|st1] eqn:Hb; [done|].
    apply IH; [by eapply loop_inv_step | by eapply Hstep].
Qed.

(** The loop raises from a state that satisfies the invariant, whose
    current node is not [end] and has no candidate edge. *)
Lemma while_loop_raises fuel g end_ start st err :
  loop_inv g start st →
  while_loop fuel g end_ st = Some (inl err) →
  ∃ st', loop_inv g start st' ∧ current st' ≠ end_
         ∧ outgoing g st' = [] ∧ err = Stuck (current st').
Proof.
  revert st. induction fuel as [|fuel IH]; intros st Hinv; simpl.
  - by case_decide.
  - case_decide; [done|].
    destruct (loop_body g st) as [e|st1] eqn:Hb.
    + apply loop_body_inl in Hb as [Hout ->]. intros [= <-]. eauto 10.
    + apply IH. by eapply loop_inv_step.
Qed.

(** X6.  Every triple of a path that the walker returns is an edge of the
    graph, with the weight that the graph stores for it, and both its ends
    are nodes of the graph when the graph is well formed. *)
Theorem returned_path_in_graph fuel g s e p :
  greedy_path_fuel fuel g s e = Some (inr p) →
  Forall (λ x, x ∈ edges g (src x)) p
  ∧ (wf_graph g → Forall (λ x, src x ∈ nodes g ∧ tgt x ∈ nodes g) p).
Proof.
  intros (st & [Hed _ _ _ _] & <- & _)%greedy_path_fuel_returns.
  split; [exact Hed|]. intros Hwf.
  eapply Forall_impl; [exact Hed|]. intros x Hx. split.
  - by eapply edges_source_node.
  - by eapply edges_target_node.
Qed.

Lemma returned_path_in_graph_witness :
  Forall (λ x, x ∈ edges (build_graph SAMPLE_EDGES) (src x))
         [("A", "C", 2); ("C", "B", 1)]%string
  ∧ (wf_graph (build_graph SAMPLE_EDGES) →
     Forall (λ x, src x ∈ nodes (build_graph SAMPLE_EDGES)
                  ∧ tgt x ∈ nodes (build_graph SAMPLE_EDGES))
            [("A", "C", 2); ("C", "B", 1)]%string).
Proof.
  apply (returned_path_in_graph 5 (build_graph SAMPLE_EDGES) "A" "B").
  vm_compute. reflexivity.
Defined.

(** X7.  On a well-formed graph a returned path has fewer edges than the
    graph has nodes. *)
Theorem returned_path_length fuel g s e p :
  wf_graph g →
  greedy_path_fuel fuel g s e = Some (inr p) →
  (length p < length (nodes g))%nat.
Proof.
  intros Hwf Hr.
  assert (has_node g s = true) as Hs.
  { unfold greedy_path_fuel in Hr. by destruct (has_node g s). }
  apply greedy_path_fuel_returns in Hr as (st & Hinv & <- & _).
  by eapply loop_inv_path_length.
Qed.

Lemma returned_path_length_witness :
  (length [("A", "C", 2%Z); ("C", "B", 1%Z)]%string
   < length (nodes (build_graph SAMPLE_EDGES)))%nat.
Proof.
  apply (returned_path_length 5 (build_graph SAMPLE_EDGES) "A" "B").
  - apply (bool_decide_unpack _). vm_compute. exact I.
  - vm_compute. reflexivity.
Defined.

Lemma loop_body_cheapest_first g start st st' :
  loop_inv g start st →
  (∀ p1 x p2, path st = p1 ++ x :: p2 →
     cheapest_first g (start :: (tgt <$> p1)) x) →
  loop_body g st = inr st' →
  ∀ p1 x p2, path st' = p1 ++ x :: p2 →
    cheapest_first g (start :: (tgt <$> p1)) x.
Proof.
  intros [_ _ _ _ Hvis] HP Hb p1 x p2 Hsplit.
  unfold loop_body in Hb.
  destruct (outgoing g st) as [|y l] eqn:Hout; [done|].
  injection Hb as <-. simpl in Hsplit.
  destruct p2 as [|z p2 _] using rev_ind.
  - apply app_inj_tail in Hsplit as [<- <-].
    assert (min_by_weight y l ∈ outgoing g st) as Hin
      by (rewrite Hout; apply min_by_weight_elem).
    apply outgoing_is_edge in Hin as (_ & Hsrc & _).
    destruct (min_by_weight_first y l) as (pre & post & Heq & Hpre & Hpost).
    exists pre, post. split_and!; [|done|done].
    rewrite Hsrc, <- Heq, <- Hout. unfold outgoing.
    apply list_filter_iff. intros e'.
    by rewrite Hvis, elem_of_list_to_set.
  - rewrite app_comm_cons, app_assoc in Hsplit.
    apply app_inj_tail in Hsplit as [Hsplit _]. by eapply HP.
Qed.

(** X8.  In a returned path every edge was the cheapest choice at its
    step: among the edges that leave its source for a node that is neither
    the start node nor a target of an earlier edge of the path, listed in
    the graph's order, it is the first of least weight. *)
Theorem returned_path_cheapest_first fuel g s e p p1 x p2 :
  greedy_path_fuel fuel g s e = Some (inr p) →
  p = p1 ++ x :: p2 →
  cheapest_first g (s :: (tgt <$> p1)) x.
Proof.
  unfold greedy_path_fuel.
  destruct (negb (has_node g s) || negb (has_node g e)); [done|].
  intros Hr Hp.
  apply (while_loop_returns_with
           (λ st, ∀ p1 x p2, path st = p1 ++ x :: p2 →
                    cheapest_first g (s :: (tgt <$> p1)) x)
           _ _ _ s) in Hr as (st & _ & HP & <- & _).
  - by eapply HP.
  - intros st st' Hinv HP Hb. by eapply loop_body_cheapest_first.
  - apply loop_inv_init.
  - intros q1 y q2 Hnil. simpl in Hnil. by destruct q1.
Qed.

Lemma returned_path_cheapest_first_witness :
  cheapest_first (build_graph SAMPLE_EDGES)
    ("A"%string :: (tgt <$> [("A", "C", 2)]%string)) ("C", "B", 1)%string.
Proof.
  apply (returned_path_cheapest_first 5 (build_graph SAMPLE_EDGES) "A" "B"
           [("A", "C", 2); ("C", "B", 1)]%string
           [("A", "C", 2)]%string ("C", "B", 1)%string []).
  - vm_compute. reflexivity.
  - reflexivity.
Defined.

(** X9.  When the walker raises [Stuck] for a node, that node is not the
    end node, it is where a chain of edges of the graph from the start
    node ends that enters no node twice, and every edge that leaves it goes
    back to the start node or to a node of that chain. *)
Theorem stuck_is_dead_end fuel g s e n :
  greedy_path_fuel fuel g s e = Some (inl (Stuck n)) →
  n ≠ e
  ∧ ∃ p, simple_path g s n p
         ∧ ∀ x, x ∈ edges g n → tgt x ∈ s :: (tgt <$> p).
Proof.
  unfold greedy_path_fuel.
  destruct (negb (has_node g s) || negb (has_node g e)); [done|].
  intros (st & Hinv & Hne & Hout & [= ->])%(while_loop_raises _ _ _ s);
    [|apply loop_inv_init].
  split; [done|]. exists (path st).
  destruct Hinv as [Hed Hc Hcur Hnd Hvis]. split; [by split_and!|].
  intros x Hx. destruct (decide (tgt x ∈ s :: (tgt <$> path st))) as [|Hn];
    [done|]. exfalso.
  assert (x ∈ outgoing g st) as Hin.
  { apply outgoing_elem. split; [done|].
    by rewrite Hvis, elem_of_list_to_set. }
  rewrite Hout in Hin. by apply elem_of_nil in Hin.
Qed.

Lemma stuck_is_dead_end_witness :
  "D"%string ≠ "E"%string
  ∧ ∃ p, simple_path (build_graph SAMPLE_EDGES) "A" "D" p
         ∧ ∀ x, x ∈ edges (build_graph SAMPLE_EDGES) "D"
                → tgt x ∈ "A"%string :: (tgt <$> p).
Proof.
  apply (stuck_is_dead_end 5 (build_graph SAMPLE_EDGES) "A" "E" "D").
  vm_compute. reflexivity.
Defined.

(** ** What greed does not give *)

Ltac by_evaluation := apply (bool_decide_unpack _); vm_compute; exact I.

(** X10.  The walker is not complete: there is a well-formed graph, the
    one of the module's sample data, in which a path without revisits
    leads from the start node to the end node and the walker raises
    [Stuck] all the same. *)
Theorem greedy_path_incomplete :
  ∃ g s e p n,
    wf_graph g ∧ simple_path g s e p
    ∧ greedy_path g s e = Some (inl (Stuck n)).
Proof.
  exists (build_graph SAMPLE_EDGES), START_NODE, END_NODE,
         [("A", "B", 4); ("B", "E", 3)]%string, "D"%string.
  split_and!.
  - by_evaluation.
  - split_and!.
    + repeat constructor; unfold is_edge; by_evaluation.
    + by simpl.
    + reflexivity.
    + by_evaluation.
  - vm_compute. reflexivity.
Qed.

(** X11.  The walker is not optimal: there is a well-formed graph in
    which it returns a path whose total weight exceeds that of another
    path without revisits between the same nodes. *)
Theorem greedy_path_not_cheapest :
  ∃ g s e p p',
    wf_graph g ∧ greedy_path g s e = Some (inr p)
    ∧ simple_path g s e p'
    ∧ total_weight p' < total_weight p.
Proof.
  exists (build_graph DETOUR_EDGES), "A"%string, "C"%string,
         [("A", "B", 1); ("B", "C", 10)]%string, [("A", "C", 2)]%string.
  split_and!.
  - by_evaluation.
  - vm_compute. reflexivity.
  - split_and!.
    + repeat constructor; unfold is_edge; by_evaluation.
    + by simpl.
    + reflexivity.
    + by_evaluation.
  - by vm_compute.
Qed.

(** ** The consumers of the path *)

Lemma last_nodes_seq s p : last (nodes_seq s p) = Some (path_end s p).
Proof.
  unfold nodes_seq. destruct p as [|x p _] using rev_ind; [done|].
  by rewrite fmap_snoc, app_comm_cons, last_snoc, path_end_snoc.
Qed.

Lemma chain_nodes_seq g s p i u v :
  chain s p → Forall (is_edge g) p →
  nodes_seq s p !! i = Some u → nodes_seq s p !! S i = Some v →
  ∃ w, (u, v, w) ∈ edges g u.
Proof.
  unfold nodes_seq. revert s i.
  induction p as [|[[a b] c] p IH]; intros s i; [done|].
  csimpl. intros [Hs Hc] [Hx Hed]%Forall_cons.
  unfold src, tgt in *; simpl in *. subst a. destruct i as [|i]; simpl.
  - intros [= <-] [= <-]. by exists c.
  - intros Hu Hv. by apply (IH b i).
Qed.

(** X12.  The node sequence that [main] prints for a returned path starts
    at the start node, ends at the end node, has one node more than the
    path has edges, lists no node twice, and each node is followed by one
    to which the graph has an edge from it. *)
Theorem nodes_seq_of_returned_path fuel g s e p :
  greedy_path_fuel fuel g s e = Some (inr p) →
  head (nodes_seq s p) = Some s
  ∧ last (nodes_seq s p) = Some e
  ∧ length (nodes_seq s p) = S (length p)
  ∧ NoDup (nodes_seq s p)
  ∧ ∀ i u v, nodes_seq s p !! i = Some u → nodes_seq s p !! S i = Some v →
      ∃ w, (u, v, w) ∈ edges g u.
Proof.
  intros (st & [Hed Hc Hcur Hnd _] & <- & <-)%greedy_path_fuel_returns.
  split_and!.
  - done.
  - by rewrite last_nodes_seq, Hcur.
  - unfold nodes_seq; simpl. by rewrite length_fmap.
  - exact Hnd.
  - intros i u v. by apply chain_nodes_seq.
Qed.

Lemma nodes_seq_of_returned_path_witness :
  last (nodes_seq "A" [("A", "C", 2); ("C", "B", 1)]%string)
  = Some "B"%string.
Proof.
  apply (nodes_seq_of_returned_path 5 (build_graph SAMPLE_EDGES) "A" "B"
           [("A", "C", 2); ("C", "B", 1)]%string).
  vm_compute. reflexivity.
Defined.

Lemma highlight_edges_Some p hl :
  highlight_edges (Some p) = Some hl →
  p ≠ [] ∧ hl = (λ x : Edge, (src x, tgt x)) <$> p.
Proof. destruct p; [done|]. by intros [= <-]. Qed.

(** X13.  For a path that the walker returns, [visualise] highlights
    nothing exactly when start and end are the same node (the path is
    empty); otherwise it highlights one pair per edge of the path, no pair
    twice, each pair an edge of the graph between nodes of the graph, so
    that the layout of the graph has a position for every highlighted
    node. *)
Theorem highlight_of_returned_path fuel g s e p :
  greedy_path_fuel fuel g s e = Some (inr p) →
  (highlight_edges (Some p) = None ↔ s = e)
  ∧ ∀ hl, highlight_edges (Some p) = Some hl →
      length hl = length p
      ∧ NoDup hl
      ∧ ∀ u v, (u, v) ∈ hl →
          u ∈ nodes g ∧ (wf_graph g → v ∈ nodes g) ∧ ∃ w, (u, v, w) ∈ edges g u.
Proof.
  intros (st & [Hed Hc Hcur Hnd _] & <- & <-)%greedy_path_fuel_returns.
  split.
  - split.
    + destruct (path st) as [|x p] eqn:Hp; [by rewrite Hcur | done].
    + intros Hse. destruct (path st) as [|x p _] eqn:Hp using rev_ind; [done|].
      rewrite path_end_snoc in Hcur. rewrite Hcur in Hse.
      apply NoDup_cons in Hnd as [Hs _]. destruct Hs.
      rewrite Hse, fmap_snoc, elem_of_app, list_elem_of_singleton. auto.
  - intros hl [_ ->]%highlight_edges_Some. split_and!.
    + by rewrite length_fmap.
    + apply NoDup_cons in Hnd as [_ Hnd].
      apply (NoDup_fmap_1 snd). rewrite <- list_fmap_compose. exact Hnd.
    + intros u v ([[a b] c] & [= -> ->] & Hin)%list_elem_of_fmap.
      rewrite Forall_forall in Hed. specialize (Hed _ Hin).
      unfold is_edge, src, tgt in *; simpl in *. split_and!.
      * by eapply edges_source_node.
      * intros Hwf. by apply (edges_target_node g a (a, b, c)).
      * by exists c.
Qed.

Lemma highlight_of_returned_path_witness :
  (highlight_edges (Some [("A", "C", 2); ("C", "B", 1)]%string) = None
   ↔ "A"%string = "B"%string)
  ∧ ∀ hl, highlight_edges (Some [("A", "C", 2); ("C", "B", 1)]%string)
          = Some hl →
      length hl = length [("A", "C", 2); ("C", "B", 1)]%string
      ∧ NoDup hl
      ∧ ∀ u v, (u, v) ∈ hl →
          u ∈ nodes (build_graph SAMPLE_EDGES)
          ∧ (wf_graph (build_graph SAMPLE_EDGES) →
             v ∈ nodes (build_graph SAMPLE_EDGES))
          ∧ ∃ w, (u, v, w) ∈ edges (build_graph SAMPLE_EDGES) u.
Proof.
  apply (highlight_of_returned_path 5 (build_graph SAMPLE_EDGES) "A" "B").
  vm_compute. reflexivity.
Defined.
